(** * Transit-IP registry of the app connector (package appc) and the
      closed-pipe error classifiers (packages neterror and localapi)

    A shallow embedding of [Conn25] with its two operations
    [HandleConnectorTransitIPRequest] and [transitIPTarget], and of the
    three [IsClosedPipeError] variants, followed by the properties of the
    specification that were checked against them. *)

From stdpp Require Import base option list strings numbers countable gmap.

Open Scope Z_scope.

Set Warnings "-clear-no-such-hyp,-register-all".

(** ** Addresses and peers *)

(** [netip.Addr] is a comparable struct: a 128-bit value kept as two 64-bit
    halves and a zone handle.  The zero handle marks the zero [Addr]
    ([netip.Addr{}], neither IPv4 nor IPv6); [z4] marks IPv4, [z6noz] IPv6
    without a zone, any other handle an IPv6 address with that zone. *)
Inductive AddrZone : Type :=
  | z0
  | z4
  | z6noz
  | z6zone (name : string).

Record Addr : Type := mkAddr {
  addr_hi : N;
  addr_lo : N;
  addr_z : AddrZone
}.

(** [netip.Addr{}], the zero value that a Go map lookup yields for a
    missing key. *)
Definition zeroAddr : Addr := mkAddr 0 0 z0.

(** [netip.AddrFrom4]: the four bytes sit in the low 32 bits under the
    [0xffff] marker of an IPv4-mapped address. *)
Definition AddrFrom4 (a b c d : N) : Addr :=
  mkAddr 0 (0xffff00000000 + (a * 16777216 + b * 65536 + c * 256 + d))%N z4.

#[global] Instance AddrZone_eq_dec : EqDecision AddrZone.
Proof. solve_decision. Defined.

#[global] Instance Addr_eq_dec : EqDecision Addr.
Proof. solve_decision. Defined.

Definition AddrZone_to_sum (h : AddrZone) : nat + string :=
  match h with
  | z0 => inl 0%nat
  | z4 => inl 1%nat
  | z6noz => inl 2%nat
  | z6zone s => inr s
  end.

Definition AddrZone_of_sum (x : nat + string) : AddrZone :=
  match x with
  | inl 0%nat => z0
  | inl 1%nat => z4
  | inl _ => z6noz
  | inr s => z6zone s
  end.

#[global] Instance AddrZone_countable : Countable AddrZone.
Proof.
  apply (inj_countable' AddrZone_to_sum AddrZone_of_sum).
  by intros [].
Defined.

#[global] Instance Addr_countable : Countable Addr.
Proof.
  apply (inj_countable'
           (λ a, (addr_hi a, addr_lo a, addr_z a))
           (λ t, mkAddr t.1.1 t.1.2 t.2)).
  by intros [].
Defined.

(** [tailcfg.NodeID] is an [int64]; the registry only uses it as a map
    key. *)
Definition NodeID : Type := Z.

(** ** Request and response shapes *)

Record TransitIPRequest : Type := mkTransitIPRequest {
  TransitIP : Addr;
  DestinationIP : Addr
}.

(** The request body: the field [TransitIPs] of
    [ConnectorTransitIPRequest]. *)
Record ConnectorTransitIPRequest : Type := mkConnectorTransitIPRequest {
  TransitIPs : list TransitIPRequest
}.

(** [type TransitIPResponseCode int] with its two named constants. *)
Definition TransitIPResponseCode : Type := Z.
Definition OK : TransitIPResponseCode := 0.
Definition OtherFailure : TransitIPResponseCode := 1.

Record TransitIPResponse : Type := mkTransitIPResponse {
  Code : TransitIPResponseCode;
  Message : string
}.

(** The response body.  Its only field is also called [TransitIPs] in the
    source; here it is [RespTransitIPs] because both records live in one
    name space.  A nil slice and an empty slice are both [[]]. *)
Record ConnectorTransitIPResponse : Type := mkConnectorTransitIPResponse {
  RespTransitIPs : list TransitIPResponse
}.

#[global] Instance TransitIPResponse_eq_dec : EqDecision TransitIPResponse.
Proof. solve_decision. Defined.

(** The composite literal [TransitIPResponse{}]: every field at its zero
    value, that is code [OK] and the empty message. *)
Definition zeroTransitIPResponse : TransitIPResponse :=
  mkTransitIPResponse 0 "".

Definition dupeTransitIPMessage : string :=
  "Duplicate transit address in ConnectorTransitIPRequest".

(** ** The connector state *)

(** [mu] is the [sync.Mutex] ([true] while some goroutine holds it).
    [transitIPs] is [None] for the nil map of a zero-value [Conn25].  The
    inner maps stored in it are always results of [make], so they are
    plain (non-nil) maps. *)
Record Conn25 : Type := mkConn25 {
  mu : bool;
  transitIPs : option (gmap NodeID (gmap Addr Addr))
}.

(** The zero value [Conn25{}] a connector starts from. *)
Definition zeroConn25 : Conn25 := mkConn25 false None.

(** A connector whose mutex nobody holds, as every goroutine finds it
    outside the critical sections. *)
Definition idle (m : option (gmap NodeID (gmap Addr Addr))) : Conn25 :=
  mkConn25 false m.

(** Methods of [*Conn25] read and write the receiver.  [None] is a call
    that does not return: [Lock] on a mutex that is held (the mutex is not
    reentrant, so the goroutine waits) or [Unlock] of a mutex that is not
    held (a fatal runtime error). *)
Definition M (A : Type) : Type := Conn25 → option (A * Conn25).

Definition ret {A} (a : A) : M A := λ c, Some (a, c).

Definition bind {A B} (x : M A) (k : A → M B) : M B :=
  λ c, match x c with
       | Some (a, c') => k a c'
       | None => None
       end.

Declare Scope conn_scope.
Delimit Scope conn_scope with conn.
Notation "x <- e ;; k" := (bind e (λ x, k))
  (at level 100, e at next level, right associativity) : conn_scope.
Notation "e ;;; k" := (bind e (λ _, k))
  (at level 100, right associativity) : conn_scope.

Definition Lock : M unit :=
  λ c, if mu c then None else Some (tt, mkConn25 true (transitIPs c)).

Definition Unlock : M unit :=
  λ c, if mu c then Some (tt, mkConn25 false (transitIPs c)) else None.

(** [defer d] in front of a body: [d] runs when the body returns, before
    the caller sees the result. *)
Definition defer {A} (d : M unit) (body : M A) : M A :=
  (r <- body ;; d ;;; ret r)%conn.

Definition get_transitIPs : M (option (gmap NodeID (gmap Addr Addr))) :=
  λ c, Some (transitIPs c, c).

Definition set_transitIPs (m : gmap NodeID (gmap Addr Addr)) : M unit :=
  λ c, Some (tt, mkConn25 (mu c) (Some m)).

(** ** The registry operations *)

(** The body of [handleTransitIPRequest] between [Lock] and the deferred
    [Unlock].  [peerMap] is a reference to the map stored under [nid], so
    the assignment [peerMap[tipr.TransitIP] = tipr.DestinationIP] changes
    the entry stored in [c.transitIPs]. *)
Definition handleTransitIPRequest_body (nid : NodeID) (tipr : TransitIPRequest)
  : M TransitIPResponse :=
  (cur <- get_transitIPs ;;
   let m1 : gmap NodeID (gmap Addr Addr) :=
     match cur with
     | None => ∅
     | Some m => m
     end in
   let '(peerMap, m2) :=
     match m1 !! nid with
     | Some pm => (pm, m1)
     | None => (∅, <[nid := ∅]> m1)
     end in
   set_transitIPs (<[nid := <[TransitIP tipr := DestinationIP tipr]> peerMap]> m2) ;;;
   ret zeroTransitIPResponse)%conn.

Definition handleTransitIPRequest (nid : NodeID) (tipr : TransitIPRequest)
  : M TransitIPResponse :=
  (Lock ;;; defer Unlock (handleTransitIPRequest_body nid tipr))%conn.

(** The locals of the loop in [HandleConnectorTransitIPRequest]:
    [seen] is a [map[netip.Addr]bool], read with the zero value [false]
    for a missing key. *)
Record loop_locals : Type := mkLocals {
  seen : gmap Addr bool;
  resp : ConnectorTransitIPResponse
}.

Definition append_resp (r : ConnectorTransitIPResponse) (x : TransitIPResponse)
  : ConnectorTransitIPResponse :=
  mkConnectorTransitIPResponse (RespTransitIPs r ++ [x]).

(** One iteration of the [for _, each := range ctipr.TransitIPs] loop. *)
Definition loop_body (nid : NodeID) (each : TransitIPRequest) (st : loop_locals)
  : M loop_locals :=
  if default false (seen st !! TransitIP each) then
    ret (mkLocals (seen st)
           (append_resp (resp st)
              (mkTransitIPResponse OtherFailure dupeTransitIPMessage)))
  else
    (tipresp <- handleTransitIPRequest nid each ;;
     ret (mkLocals (<[TransitIP each := true]> (seen st))
            (append_resp (resp st) tipresp)))%conn.

Fixpoint range_loop (nid : NodeID) (pairs : list TransitIPRequest)
    (st : loop_locals) : M loop_locals :=
  match pairs with
  | [] => ret st
  | each :: rest => (st' <- loop_body nid each st ;; range_loop nid rest st')%conn
  end.

Definition HandleConnectorTransitIPRequest (nid : NodeID)
    (ctipr : ConnectorTransitIPRequest) : M ConnectorTransitIPResponse :=
  (st <- range_loop nid (TransitIPs ctipr)
           (mkLocals ∅ (mkConnectorTransitIPResponse [])) ;;
   ret (resp st))%conn.

(** [c.transitIPs[nid][tip]]: indexing a nil map, or a map without the
    key, yields the zero value; for the outer map that is the nil inner
    map, for the inner map the zero [Addr]. *)
Definition transitIPTarget (nid : NodeID) (tip : Addr) : M Addr :=
  (Lock ;;;
   defer Unlock
     (cur <- get_transitIPs ;;
      let inner : option (gmap Addr Addr) :=
        match cur with
        | None => None
        | Some m => m !! nid
        end in
      ret (match inner with
           | None => zeroAddr
           | Some pm => default zeroAddr (pm !! tip)
           end)))%conn.

(** ** What the two operations compute on an idle connector *)

Abbreviation registry := (option (gmap NodeID (gmap Addr Addr))).

(** The mapping stored for [(nid, tip)], if any. *)
Definition mapping (m : registry) (nid : NodeID) (tip : Addr) : option Addr :=
  pm ← (mm ← m; mm !! nid); pm !! tip.

(** The submap stored for [nid], if any. *)
Definition submap (m : registry) (nid : NodeID) : option (gmap Addr Addr) :=
  mm ← m; mm !! nid.

(** The registry after one pair has been applied. *)
Definition apply_pair (nid : NodeID) (tipr : TransitIPRequest) (m : registry)
  : registry :=
  Some (<[nid := <[TransitIP tipr := DestinationIP tipr]>
                   (default ∅ (default ∅ m !! nid))]> (default ∅ m)).

(** Pair [p] repeats the transit address of one of the pairs [earlier]. *)
Definition is_dup (earlier : list TransitIPRequest) (p : TransitIPRequest) : bool :=
  bool_decide (TransitIP p ∈ TransitIP <$> earlier).

Definition dupe_outcome : TransitIPResponse :=
  mkTransitIPResponse OtherFailure dupeTransitIPMessage.

Definition outcome_of (earlier : list TransitIPRequest) (p : TransitIPRequest)
  : TransitIPResponse :=
  if is_dup earlier p then dupe_outcome else zeroTransitIPResponse.

Fixpoint outcomes (earlier pairs : list TransitIPRequest) : list TransitIPResponse :=
  match pairs with
  | [] => []
  | p :: rest => outcome_of earlier p :: outcomes (earlier ++ [p]) rest
  end.

Fixpoint registry_after (nid : NodeID) (earlier pairs : list TransitIPRequest)
    (m : registry) : registry :=
  match pairs with
  | [] => m
  | p :: rest =>
      registry_after nid (earlier ++ [p]) rest
        (if is_dup earlier p then m else apply_pair nid p m)
  end.

(** The [seen] map holds exactly the transit addresses of [earlier]. *)
Definition seen_agrees (sn : gmap Addr bool) (earlier : list TransitIPRequest) : Prop :=
  ∀ a, default false (sn !! a) = bool_decide (a ∈ TransitIP <$> earlier).

(** The connector states at the loop's iteration boundaries: before the
    first pair, between two pairs, after the last.  These are the points at
    which the goroutine running the batch is outside
    [handleTransitIPRequest]. *)
Fixpoint boundary_states (nid : NodeID) (pairs : list TransitIPRequest)
    (st : loop_locals) (c : Conn25) : list Conn25 :=
  c :: match pairs with
       | [] => []
       | each :: rest =>
           match loop_body nid each st c with
           | Some (st', c') => boundary_states nid rest st' c'
           | None => []
           end
       end.

(** Every stored submap holds at least one mapping. *)
Definition nonempty_submaps (m : registry) : Prop :=
  ∀ nid pm, submap m nid = Some pm → pm ≠ ∅.

(** The registry operations as a caller sees them. *)
Inductive op : Type :=
  | Register (nid : NodeID) (ctipr : ConnectorTransitIPRequest)
  | Lookup (nid : NodeID) (tip : Addr).

Definition run_op (o : op) : M unit :=
  match o with
  | Register nid ctipr => (HandleConnectorTransitIPRequest nid ctipr ;;; ret tt)%conn
  | Lookup nid tip => (transitIPTarget nid tip ;;; ret tt)%conn
  end.

(** A caller running operations one after the other. *)
Fixpoint run_ops (os : list op) : M unit :=
  match os with
  | [] => ret tt
  | o :: rest => (run_op o ;;; run_ops rest)%conn
  end.

(** The peer on whose behalf an operation writes, if it is a registration. *)
Definition registering_peer (o : op) : option NodeID :=
  match o with
  | Register nid _ => Some nid
  | Lookup _ _ => None
  end.

(** States a connector can be in between operations, from [Conn25{}]. *)
Inductive reachable : Conn25 → Prop :=
  | reachable_zero : reachable zeroConn25
  | reachable_step c o c' :
      reachable c → run_op o c = Some (tt, c') → reachable c'.

(** ** Atomicity of a batch, as the specification words it *)




(** A batch of two pairs with different transit addresses, and the
    registry a new peer 7 has after the first pair and after both. *)
Definition ex_T1 : Addr := AddrFrom4 100 64 0 1.
Definition ex_D1 : Addr := AddrFrom4 10 0 0 1.
Definition ex_T2 : Addr := AddrFrom4 100 64 0 2.
Definition ex_D2 : Addr := AddrFrom4 10 0 0 2.

Definition ex_batch : list TransitIPRequest :=
  [mkTransitIPRequest ex_T1 ex_D1; mkTransitIPRequest ex_T2 ex_D2].

Definition ex_after_first : registry :=
  Some {[ 7 := {[ ex_T1 := ex_D1 ]} ]}.

Definition ex_after_both : registry :=
  Some {[ 7 := <[ ex_T2 := ex_D2 ]> {[ ex_T1 := ex_D1 ]} ]}.

(** ** Errors and the closed-pipe classifiers *)

(** The error values the classifiers are asked about.  [Errno] is
    [syscall.Errno]; [fs_ErrClosed] and [io_ErrClosedPipe] are the two
    sentinel values; [errorString] stands for any other value that has
    neither an [Unwrap] nor an [Is] method (a fresh [errors.New], whatever
    its text); [wrapError] for a value with [Unwrap() error]
    ([fmt.Errorf] with [%w], [*os.SyscallError], [*net.OpError],
    [*fs.PathError]), which may return nil; [joinError] for a value with
    [Unwrap() []error] ([errors.Join]).  The Go nil error is [None] of
    [option error]. *)
Inductive error : Type :=
  | Errno (e : Z)
  | fs_ErrClosed
  | io_ErrClosedPipe
  | errorString (s : string)
  | wrapError (msg : string) (err : option error)
  | joinError (errs : list error).

(** Induction on errors that reaches under [wrapError] and [joinError]. *)
Section error_ind_nested.
Variable P : error → Prop.
Hypothesis HErrno : ∀ e, P (Errno e).
Hypothesis HErrClosed : P fs_ErrClosed.
Hypothesis HErrClosedPipe : P io_ErrClosedPipe.
Hypothesis HerrorString : ∀ s, P (errorString s).
Hypothesis HwrapNil : ∀ msg, P (wrapError msg None).
Hypothesis Hwrap : ∀ msg inner, P inner → P (wrapError msg (Some inner)).
Hypothesis Hjoin : ∀ errs, Forall P errs → P (joinError errs).

End error_ind_nested.

(** [err == target] inside [errors.Is], for the targets the classifiers
    pass: an [Errno] equals an [Errno] of the same number, a sentinel only
    itself; a wrapper is a pointer of its own and equals none of them. *)
Definition same_error (err target : error) : bool :=
  match err, target with
  | Errno a, Errno b => bool_decide (a = b)
  | fs_ErrClosed, fs_ErrClosed => true
  | io_ErrClosedPipe, io_ErrClosedPipe => true
  | _, _ => false
  end.

(** The loop of [errors.Is] on a non-nil error: compare, then unwrap.
    ([syscall.Errno] has an [Is] method, but it only answers for
    [ErrPermission], [ErrExist], [ErrNotExist] and [ErrUnsupported], none
    of which is a target here.) *)
Fixpoint is_ (err target : error) : bool :=
  same_error err target
  || match err with
     | wrapError _ (Some inner) => is_ inner target
     | joinError errs => existsb (λ e, is_ e target) errs
     | _ => false
     end.

(** [errors.Is(err, target)] for a non-nil [target]: a nil [err] equals
    no target. *)
Definition errors_Is (err : option error) (target : error) : bool :=
  match err with
  | None => false
  | Some e => is_ e target
  end.

(** What the classifiers take from the platform they are built for:
    [runtime.GOOS] and the numbers of [syscall.EPIPE] and
    [syscall.ENOTCONN]. *)
Record platform : Type := mkPlatform {
  GOOS : string;
  EPIPE : Z;
  ENOTCONN : Z
}.

Definition linux : platform := mkPlatform "linux" 32 107.

(** [expect] of both classifiers: [EPIPE], or on Windows error 232,
    ERROR_NO_DATA, the pipe is being closed. *)
Definition expect (pf : platform) : Z :=
  if String.eqb (GOOS pf) "windows" then 232 else EPIPE pf.

Module neterror.

(** Build [!plan9 && !js && !wasip1 && !wasm]. *)
Definition IsClosedPipeError (pf : platform) (err : option error) : bool :=
  errors_Is err (Errno (expect pf))
  || errors_Is err (Errno (ENOTCONN pf))
  || errors_Is err fs_ErrClosed
  || errors_Is err io_ErrClosedPipe.


End neterror.

Module localapi.

(** Build [!plan9]. *)
Definition IsClosedPipeError (pf : platform) (err : option error) : bool :=
  if errors_Is err (Errno (expect pf)) then true
  else errors_Is err io_ErrClosedPipe.

End localapi.





(** ** The transit address of a magic address *)

(** [Addr.Is4]: the address carries the IPv4 handle.  An IPv4-mapped IPv6
    address does not. *)
Definition Is4 (ip : Addr) : bool := bool_decide (addr_z ip = z4).

(** [Addr.Is6]: neither the zero address nor IPv4. *)
Definition Is6 (ip : Addr) : bool :=
  negb (bool_decide (addr_z ip = z0)) && negb (bool_decide (addr_z ip = z4)).

(** [Addr.Is4In6]: [ip.Is6() && ip.addr.hi == 0 && ip.addr.lo>>32 == 0xffff]. *)
Definition Is4In6 (ip : Addr) : bool :=
  Is6 ip && (addr_hi ip =? 0)%N && (N.shiftr (addr_lo ip) 32 =? 0xffff)%N.

(** [Addr.As4]: for an IPv4 or IPv4-mapped address the four bytes of
    [uint32(ip.addr.lo)], most significant first; for any other address
    the call panics ([None]). *)
Definition As4 (ip : Addr) : option (N * N * N * N) :=
  if bool_decide (addr_z ip = z4) || Is4In6 ip then
    let v := (addr_lo ip mod 2 ^ 32)%N in
    Some ((N.shiftr v 24 mod 256)%N, (N.shiftr v 16 mod 256)%N,
          (N.shiftr v 8 mod 256)%N, (v mod 256)%N)
  else None.

(** [ClientTransitIPForMagicIP]: the receiver is not used.  The result is
    the returned address with the returned error ([None] for nil); [None]
    as a whole would be a panic of [As4]. *)
Definition ClientTransitIPForMagicIP (magic : Addr) : option (Addr * option error) :=
  if negb (Is4 magic) then
    Some (zeroAddr,
          Some (errorString
                  "bootleg transit ip for magic ip only deals with ip4 for now"))
  else
    match As4 magic with
    | Some (_, _, mb2, mb3) => Some (AddrFrom4 169 254 mb2 mb3, None)
    | None => None
    end.

(** ** Further vocabulary for the properties below *)

(** The first pair of a batch with transit address [T]. *)
Fixpoint first_with_transit (T : Addr) (pairs : list TransitIPRequest)
  : option TransitIPRequest :=
  match pairs with
  | [] => None
  | p :: rest =>
      if decide (TransitIP p = T) then Some p else first_with_transit T rest
  end.

(** The transit addresses a peer has a mapping for. *)
Definition mapped_transits (m : registry) (nid : NodeID) : gset Addr :=
  dom (default ∅ (submap m nid)).

(** The number of [OK] outcomes in a response. *)
Definition count_ok (rs : list TransitIPResponse) : nat :=
  length (filter (λ r, Code r = OK) rs).

(** ** Helper lemmas *)

Example handle_two_pairs :
  HandleConnectorTransitIPRequest 7
    (mkConnectorTransitIPRequest
       [mkTransitIPRequest (AddrFrom4 100 64 0 1) (AddrFrom4 10 0 0 1);
        mkTransitIPRequest (AddrFrom4 100 64 0 1) (AddrFrom4 10 0 0 2)])
    zeroConn25
  = Some (mkConnectorTransitIPResponse
            [mkTransitIPResponse OK "";
             mkTransitIPResponse OtherFailure dupeTransitIPMessage],
          idle (Some {[ 7 := {[ AddrFrom4 100 64 0 1 := AddrFrom4 10 0 0 1 ]} ]})).
Proof. vm_compute. reflexivity. Qed.

Section registry_lemmas.
Implicit Types (nid : NodeID) (m : registry) (p : TransitIPRequest).
Implicit Types (e l : list TransitIPRequest).

Lemma handleTransitIPRequest_body_eq nid p c :
  handleTransitIPRequest_body nid p c
  = Some (zeroTransitIPResponse, mkConn25 (mu c) (apply_pair nid p (transitIPs c))).
Proof.
  unfold handleTransitIPRequest_body, bind, get_transitIPs, set_transitIPs,
    ret, apply_pair.
  destruct c as [b [mm|]]; simpl.
  - destruct (mm !! nid) as [pm|] eqn:E; simpl; [done|].
    by rewrite insert_insert_eq.
  - rewrite lookup_empty; simpl. by rewrite insert_insert_eq.
Qed.

Lemma handleTransitIPRequest_idle nid p m :
  handleTransitIPRequest nid p (idle m)
  = Some (zeroTransitIPResponse, idle (apply_pair nid p m)).
Proof.
  unfold handleTransitIPRequest, defer, bind, Lock, idle; simpl.
  by rewrite handleTransitIPRequest_body_eq.
Qed.

Lemma transitIPTarget_idle nid tip m :
  transitIPTarget nid tip (idle m)
  = Some (default zeroAddr (mapping m nid tip), idle m).
Proof.
  unfold transitIPTarget, defer, bind, mapping, idle; simpl.
  destruct m as [mm|]; simpl; [|done].
  by destruct (mm !! nid) as [pm|].
Qed.

Lemma seen_agrees_empty : seen_agrees ∅ [].
Proof.
  intros a. rewrite lookup_empty. symmetry.
  apply bool_decide_eq_false_2. set_solver.
Qed.

Lemma seen_agrees_insert sn e p :
  seen_agrees sn e → seen_agrees (<[TransitIP p := true]> sn) (e ++ [p]).
Proof.
  intros H a. rewrite fmap_app; simpl.
  destruct (decide (a = TransitIP p)) as [->|Hne].
  - rewrite lookup_insert_eq; simpl. symmetry. apply bool_decide_eq_true_2. set_solver.
  - rewrite lookup_insert_ne by done. rewrite H.
    apply bool_decide_ext. set_solver.
Qed.

Lemma seen_agrees_dup sn e p :
  seen_agrees sn e → is_dup e p = true → seen_agrees sn (e ++ [p]).
Proof.
  intros H Hd a. rewrite H. apply bool_decide_ext.
  unfold is_dup in Hd. apply bool_decide_eq_true_1 in Hd.
  rewrite fmap_app; simpl. set_solver.
Qed.

Lemma loop_body_idle nid p sn rs e m :
  seen_agrees sn e →
  ∃ sn', loop_body nid p (mkLocals sn (mkConnectorTransitIPResponse rs)) (idle m)
         = Some (mkLocals sn' (mkConnectorTransitIPResponse (rs ++ [outcome_of e p])),
                 idle (if is_dup e p then m else apply_pair nid p m))
         ∧ seen_agrees sn' (e ++ [p]).
Proof.
  intros H. unfold loop_body, outcome_of; simpl.
  rewrite (H (TransitIP p)). fold (is_dup e p).
  destruct (is_dup e p) eqn:Hd.
  - exists sn. split; [done|]. by apply seen_agrees_dup.
  - exists (<[TransitIP p := true]> sn). split; [|by apply seen_agrees_insert].
    unfold bind. by rewrite handleTransitIPRequest_idle.
Qed.

Lemma range_loop_idle nid l : ∀ sn rs e m,
  seen_agrees sn e →
  ∃ sn', range_loop nid l (mkLocals sn (mkConnectorTransitIPResponse rs)) (idle m)
         = Some (mkLocals sn' (mkConnectorTransitIPResponse (rs ++ outcomes e l)),
                 idle (registry_after nid e l m))
         ∧ seen_agrees sn' (e ++ l).
Proof.
  induction l as [|p l IH]; intros sn rs e m H; simpl.
  - exists sn. by rewrite !app_nil_r.
  - destruct (loop_body_idle nid p sn rs e m H) as (sn1 & E1 & H1).
    unfold bind at 1. rewrite E1.
    destruct (IH sn1 (rs ++ [outcome_of e p]) (e ++ [p])
                (if is_dup e p then m else apply_pair nid p m) H1)
      as (sn2 & E2 & H2).
    exists sn2. rewrite E2. rewrite <- app_assoc in H2.
    by rewrite <- app_assoc.
Qed.

Lemma Handle_idle nid l m :
  HandleConnectorTransitIPRequest nid (mkConnectorTransitIPRequest l) (idle m)
  = Some (mkConnectorTransitIPResponse (outcomes [] l),
          idle (registry_after nid [] l m)).
Proof.
  unfold HandleConnectorTransitIPRequest; simpl.
  destruct (range_loop_idle nid l ∅ [] [] m seen_agrees_empty) as (sn' & E & _).
  unfold bind. by rewrite E.
Qed.

Lemma outcomes_length l : ∀ e, length (outcomes e l) = length l.
Proof. induction l as [|p l IH]; intros e; simpl; [done|]. by rewrite IH. Qed.

Lemma outcomes_app l1 : ∀ e l2,
  outcomes e (l1 ++ l2) = outcomes e l1 ++ outcomes (e ++ l1) l2.
Proof.
  induction l1 as [|p l1 IH]; intros e l2; simpl.
  - by rewrite app_nil_r.
  - by rewrite IH, <- app_assoc.
Qed.

Lemma registry_after_app nid l1 : ∀ e l2 m,
  registry_after nid e (l1 ++ l2) m
  = registry_after nid (e ++ l1) l2 (registry_after nid e l1 m).
Proof.
  induction l1 as [|p l1 IH]; intros e l2 m; simpl.
  - by rewrite app_nil_r.
  - by rewrite IH, <- app_assoc.
Qed.

Lemma outcomes_lookup l : ∀ e i,
  outcomes e l !! i = outcome_of (e ++ take i l) <$> l !! i.
Proof.
  induction l as [|p l IH]; intros e i; simpl; [by destruct i|].
  destruct i as [|i]; simpl.
  - by rewrite app_nil_r.
  - rewrite IH. by rewrite <- app_assoc.
Qed.

Lemma is_dup_ext e1 e2 p :
  (∀ a, a ∈ TransitIP <$> e1 ↔ a ∈ TransitIP <$> e2) →
  is_dup e1 p = is_dup e2 p.
Proof. intros H. unfold is_dup. by apply bool_decide_ext. Qed.

Lemma same_seen_snoc e1 e2 p :
  (∀ a, a ∈ TransitIP <$> e1 ↔ a ∈ TransitIP <$> e2) →
  ∀ a, a ∈ TransitIP <$> (e1 ++ [p]) ↔ a ∈ TransitIP <$> (e2 ++ [p]).
Proof. intros H a. rewrite !fmap_app, !elem_of_app. by rewrite H. Qed.

Lemma outcomes_ext l : ∀ e1 e2,
  (∀ a, a ∈ TransitIP <$> e1 ↔ a ∈ TransitIP <$> e2) →
  outcomes e1 l = outcomes e2 l.
Proof.
  induction l as [|p l IH]; intros e1 e2 H; simpl; [done|].
  unfold outcome_of. rewrite (is_dup_ext e1 e2 p H).
  f_equal. apply IH. by apply same_seen_snoc.
Qed.

Lemma registry_after_ext nid l : ∀ e1 e2 m,
  (∀ a, a ∈ TransitIP <$> e1 ↔ a ∈ TransitIP <$> e2) →
  registry_after nid e1 l m = registry_after nid e2 l m.
Proof.
  induction l as [|p l IH]; intros e1 e2 m H; simpl; [done|].
  rewrite (is_dup_ext e1 e2 p H). apply IH. by apply same_seen_snoc.
Qed.

Lemma is_dup_true e p : is_dup e p = true ↔ TransitIP p ∈ TransitIP <$> e.
Proof. unfold is_dup. apply bool_decide_eq_true. Qed.

Lemma is_dup_false e p : is_dup e p = false ↔ TransitIP p ∉ TransitIP <$> e.
Proof. unfold is_dup. apply bool_decide_eq_false. Qed.

(** Being a duplicate of the first [i] pairs, said with indices. *)
Lemma elem_of_take_transit l i a :
  a ∈ TransitIP <$> take i l
  ↔ ∃ j q, (j < i)%nat ∧ l !! j = Some q ∧ TransitIP q = a.
Proof.
  rewrite list_elem_of_fmap. split.
  - intros (q & -> & Hq). apply list_elem_of_lookup in Hq as (j & Hj).
    apply lookup_take_Some in Hj as [Hj Hlt]. by exists j, q.
  - intros (j & q & Hlt & Hj & <-). exists q. split; [done|].
    apply list_elem_of_lookup. exists j. by apply lookup_take_Some.
Qed.

(** A repeated pair changes neither the later outcomes nor the registry. *)
Lemma seen_with_dup e p :
  TransitIP p ∈ TransitIP <$> e →
  ∀ a, a ∈ TransitIP <$> (e ++ [p]) ↔ a ∈ TransitIP <$> e.
Proof. intros H a. rewrite fmap_app, elem_of_app; simpl. set_solver. Qed.

Lemma mapping_apply_pair nid p m nid' a :
  mapping (apply_pair nid p m) nid' a
  = if decide (nid' = nid ∧ a = TransitIP p) then Some (DestinationIP p)
    else mapping m nid' a.
Proof.
  unfold mapping, apply_pair; simpl.
  destruct (decide (nid' = nid)) as [->|Hn].
  - rewrite lookup_insert_eq; simpl.
    destruct (decide (a = TransitIP p)) as [->|Ha].
    + rewrite lookup_insert_eq. by rewrite decide_True.
    + rewrite lookup_insert_ne by done.
      rewrite decide_False by (by intros [_ ?]).
      destruct m as [mm|]; simpl; [by destruct (mm !! nid)|].
      by rewrite lookup_empty.
  - rewrite lookup_insert_ne by done.
    rewrite decide_False by (by intros [? _]).
    destruct m as [mm|]; simpl; [done|]. by rewrite lookup_empty.
Qed.

Lemma submap_apply_pair_ne nid p m nid' :
  nid' ≠ nid → submap (apply_pair nid p m) nid' = submap m nid'.
Proof.
  intros Hn. unfold submap, apply_pair; simpl.
  rewrite lookup_insert_ne by done.
  destruct m as [mm|]; simpl; [done|]. by rewrite lookup_empty.
Qed.

Lemma submap_registry_after_ne nid nid' l : ∀ e m,
  nid' ≠ nid → submap (registry_after nid e l m) nid' = submap m nid'.
Proof.
  induction l as [|p l IH]; intros e m Hn; simpl; [done|].
  rewrite IH by done. destruct (is_dup e p); [done|].
  by apply submap_apply_pair_ne.
Qed.

Lemma mapping_submap m nid a : mapping m nid a = (pm ← submap m nid; pm !! a).
Proof. done. Qed.

(** Once a transit address has been seen, the rest of the batch no longer
    writes under it. *)
Lemma mapping_registry_after_seen nid nid' a l : ∀ e m,
  a ∈ TransitIP <$> e →
  mapping (registry_after nid e l m) nid' a = mapping m nid' a.
Proof.
  induction l as [|p l IH]; intros e m Ha; simpl; [done|].
  rewrite IH by (rewrite fmap_app; set_solver).
  destruct (is_dup e p) eqn:Hd; [done|].
  rewrite mapping_apply_pair. apply is_dup_false in Hd.
  rewrite decide_False; [done|]. intros [_ ->]. done.
Qed.

(** A transit address that the batch does not mention is not written. *)
Lemma mapping_registry_after_absent nid nid' a l : ∀ e m,
  a ∉ TransitIP <$> l →
  mapping (registry_after nid e l m) nid' a = mapping m nid' a.
Proof.
  induction l as [|p l IH]; intros e m Ha; simpl; [done|].
  rewrite fmap_cons, not_elem_of_cons in Ha. destruct Ha as [Hne Ha].
  rewrite IH by done. destruct (is_dup e p); [done|].
  rewrite mapping_apply_pair. rewrite decide_False; [done|]. by intros [_ ?].
Qed.

(** The boundary states are the trace of the loop itself: whenever the loop
    returns, the last of them is the connector it returns. *)
Lemma boundary_states_last nid l : ∀ st c st' c',
  range_loop nid l st c = Some (st', c') →
  last (boundary_states nid l st c) = Some c'.
Proof.
  induction l as [|p l IH]; intros st c st' c' Hrun; simpl in Hrun.
  - by injection Hrun as _ <-.
  - unfold bind in Hrun. cbn [boundary_states].
    destruct (loop_body nid p st c) as [[st1 c1]|]; [|done].
    rewrite last_cons, (IH _ _ _ _ Hrun). done.
Qed.

Lemma boundary_states_idle nid l : ∀ sn rs e m,
  seen_agrees sn e →
  boundary_states nid l (mkLocals sn (mkConnectorTransitIPResponse rs)) (idle m)
  = (λ k, idle (registry_after nid e (take k l) m)) <$> seq 0 (S (length l)).
Proof.
  induction l as [|p l IH]; intros sn rs e m H; [done|].
  cbn [boundary_states].
  destruct (loop_body_idle nid p sn rs e m H) as (sn1 & -> & H1).
  rewrite (IH _ _ _ _ H1).
  change (seq 0 (S (length (p :: l)))) with (0%nat :: seq 1 (S (length l))).
  rewrite fmap_cons, <- fmap_S_seq, <- list_fmap_compose. done.
Qed.

Lemma boundary_states_lookup nid l m k :
  (k ≤ length l)%nat →
  boundary_states nid l (mkLocals ∅ (mkConnectorTransitIPResponse [])) (idle m) !! k
  = Some (idle (registry_after nid [] (take k l) m)).
Proof.
  intros Hk. rewrite (boundary_states_idle nid l ∅ [] [] m seen_agrees_empty).
  rewrite list_lookup_fmap, lookup_seq_lt by lia. done.
Qed.

Lemma registry_after_drop_dup nid pre p post m :
  TransitIP p ∈ TransitIP <$> pre →
  registry_after nid [] (pre ++ p :: post) m
  = registry_after nid [] (pre ++ post) m.
Proof.
  intros Hd. rewrite !registry_after_app; simpl.
  apply is_dup_true in Hd as Hd'. rewrite Hd'.
  apply registry_after_ext. by apply seen_with_dup.
Qed.

Lemma outcomes_drop_dup pre p post :
  TransitIP p ∈ TransitIP <$> pre →
  outcomes [] (pre ++ p :: post)
  = take (length pre) (outcomes [] (pre ++ post))
    ++ dupe_outcome :: drop (length pre) (outcomes [] (pre ++ post)).
Proof.
  intros Hd. rewrite !outcomes_app; simpl.
  rewrite take_app_length', drop_app_length' by (by rewrite outcomes_length).
  unfold outcome_of. apply is_dup_true in Hd as Hd'. rewrite Hd'.
  do 2 f_equal. apply outcomes_ext. by apply seen_with_dup.
Qed.

Lemma run_op_idle o m :
  ∃ m', run_op o (idle m) = Some (tt, idle m')
        ∧ ∀ nid, registering_peer o ≠ Some nid → submap m' nid = submap m nid.
Proof.
  destruct o as [nid [l]|nid tip]; simpl; unfold bind.
  - rewrite Handle_idle. eexists; split; [done|].
    intros nid' Hn. apply submap_registry_after_ne. congruence.
  - rewrite transitIPTarget_idle. by eexists.
Qed.

Lemma run_ops_idle os : ∀ m,
  ∃ m', run_ops os (idle m) = Some (tt, idle m')
        ∧ ∀ nid, Forall (λ o, registering_peer o ≠ Some nid) os →
                 submap m' nid = submap m nid.
Proof.
  induction os as [|o os IH]; intros m; simpl.
  - by exists m.
  - destruct (run_op_idle o m) as (m1 & E1 & F1).
    destruct (IH m1) as (m2 & E2 & F2).
    exists m2. unfold bind. rewrite E1. split; [done|].
    intros nid Hall. apply Forall_cons in Hall as [Ho Hos].
    by rewrite F2, F1.
Qed.

Lemma nonempty_submaps_apply_pair nid p m :
  nonempty_submaps m → nonempty_submaps (apply_pair nid p m).
Proof.
  intros H nid' pm. destruct (decide (nid' = nid)) as [->|Hn].
  - unfold submap, apply_pair; simpl. rewrite lookup_insert_eq.
    intros [= <-]. apply insert_non_empty.
  - rewrite submap_apply_pair_ne by done. apply H.
Qed.

Lemma nonempty_submaps_registry_after nid l : ∀ e m,
  nonempty_submaps m → nonempty_submaps (registry_after nid e l m).
Proof.
  induction l as [|p l IH]; intros e m H; simpl; [done|].
  apply IH. destruct (is_dup e p); [done|].
  by apply nonempty_submaps_apply_pair.
Qed.

Lemma reachable_idle c :
  reachable c → ∃ m, c = idle m ∧ nonempty_submaps m.
Proof.
  induction 1 as [|c o c' _ (m & -> & Hm) Hstep].
  - exists None. split; [done|]. by intros nid pm.
  - destruct o as [nid [l]|nid tip]; simpl in Hstep; unfold bind, ret in Hstep.
    + rewrite Handle_idle in Hstep. simplify_eq/=.
      eexists; split; [reflexivity|]. by apply nonempty_submaps_registry_after.
    + rewrite transitIPTarget_idle in Hstep. simplify_eq/=.
      exists m. by split.
Qed.

End registry_lemmas.

(** ** Properties of the registry *)

(** C1.  For every peer, batch and prior registry: the outcome of pair [i]
    is [OtherFailure] with the fixed duplicate message exactly when an
    earlier pair of the same batch has the same transit address; the
    iteration that rejects a pair leaves the connector as it found it; and
    the batch behaves as if the rejected pair had not been sent: the final
    registry and all other outcomes are those of the batch without it. *)
Theorem C1_duplicate_in_batch (nid : NodeID) (batch : list TransitIPRequest)
    (m : registry) :
  ∃ rs c',
    HandleConnectorTransitIPRequest nid (mkConnectorTransitIPRequest batch) (idle m)
    = Some (mkConnectorTransitIPResponse rs, c')
    ∧ (∀ i p, batch !! i = Some p →
         ∃ r, rs !! i = Some r
           ∧ (r = mkTransitIPResponse OtherFailure dupeTransitIPMessage
              ↔ ∃ j q, (j < i)%nat ∧ batch !! j = Some q ∧ TransitIP q = TransitIP p)
           ∧ (Code r = OtherFailure
              ↔ ∃ j q, (j < i)%nat ∧ batch !! j = Some q ∧ TransitIP q = TransitIP p))
    ∧ (∀ pre p post,
         batch = pre ++ p :: post →
         TransitIP p ∈ TransitIP <$> pre →
         let bs := boundary_states nid batch
                     (mkLocals ∅ (mkConnectorTransitIPResponse [])) (idle m) in
         (∃ c, bs !! length pre = Some c ∧ bs !! S (length pre) = Some c)
         ∧ ∃ rs0,
             HandleConnectorTransitIPRequest nid
               (mkConnectorTransitIPRequest (pre ++ post)) (idle m)
             = Some (mkConnectorTransitIPResponse rs0, c')
             ∧ rs = take (length pre) rs0
                    ++ mkTransitIPResponse OtherFailure dupeTransitIPMessage
                    :: drop (length pre) rs0).
Proof.
  exists (outcomes [] batch), (idle (registry_after nid [] batch m)).
  split; [apply Handle_idle|]. split.
  - intros i p Hp. exists (outcome_of (take i batch) p).
    split; [by rewrite outcomes_lookup, Hp|].
    rewrite <- elem_of_take_transit, <- is_dup_true.
    unfold outcome_of. destruct (is_dup (take i batch) p); split; by intros.
  - intros pre p post -> Hd bs. split.
    + exists (idle (registry_after nid [] pre m)). subst bs.
      rewrite !boundary_states_lookup by (rewrite length_app; simpl; lia).
      rewrite take_app_length.
      replace (S (length pre)) with (length (pre ++ [p])) by (rewrite length_app; simpl; lia).
      rewrite (cons_middle p pre post), app_assoc, take_app_length.
      rewrite registry_after_app; simpl.
      apply is_dup_true in Hd. by rewrite Hd.
    + exists (outcomes [] (pre ++ post)).
      rewrite Handle_idle, (registry_after_drop_dup nid pre p post m Hd).
      split; [done|]. by apply outcomes_drop_dup.
Qed.

(** C2.  A batch of [N] pairs yields exactly [N] outcomes, the outcome at
    index [i] is the one pair [i] earns from the pairs before it, and every
    outcome is [OK] with an empty message or [OtherFailure] with a
    non-empty one. *)
Theorem C2_outcomes_in_input_order (nid : NodeID) (batch : list TransitIPRequest)
    (m : registry) :
  ∃ rs c',
    HandleConnectorTransitIPRequest nid (mkConnectorTransitIPRequest batch) (idle m)
    = Some (mkConnectorTransitIPResponse rs, c')
    ∧ length rs = length batch
    ∧ (∀ i p, batch !! i = Some p → rs !! i = Some (outcome_of (take i batch) p))
    ∧ Forall (λ r, (Code r = OK ∧ Message r = "")
                   ∨ (Code r = OtherFailure ∧ Message r ≠ "")) rs.
Proof.
  exists (outcomes [] batch), (idle (registry_after nid [] batch m)).
  split; [apply Handle_idle|]. split; [apply outcomes_length|]. split.
  - intros i p Hp. by rewrite outcomes_lookup, Hp.
  - apply Forall_lookup. intros i r Hr.
    rewrite outcomes_lookup in Hr.
    destruct (batch !! i) as [p|]; simplify_eq/=.
    unfold outcome_of. destruct (is_dup _ p); [right|left]; done.
Qed.

(** C3.  A pair that a batch applies is what [transitIPTarget] returns
    after the batch; registering [(T, D1)] and, in a later call, [(T, D2)]
    is [OK] both times and leaves [D2]; registering the same pair twice is
    [OK] both times and leaves [D]. *)
Theorem C3_latest_registration_wins (nid : NodeID) (m : registry) :
  (∀ batch i p,
     batch !! i = Some p →
     TransitIP p ∉ TransitIP <$> take i batch →
     ∃ rs c',
       HandleConnectorTransitIPRequest nid (mkConnectorTransitIPRequest batch) (idle m)
       = Some (mkConnectorTransitIPResponse rs, c')
       ∧ rs !! i = Some (mkTransitIPResponse OK "")
       ∧ transitIPTarget nid (TransitIP p) c' = Some (DestinationIP p, c'))
  ∧ (∀ T D1 D2,
       ∃ c1 c2,
         HandleConnectorTransitIPRequest nid
           (mkConnectorTransitIPRequest [mkTransitIPRequest T D1]) (idle m)
         = Some (mkConnectorTransitIPResponse [mkTransitIPResponse OK ""], c1)
         ∧ transitIPTarget nid T c1 = Some (D1, c1)
         ∧ HandleConnectorTransitIPRequest nid
             (mkConnectorTransitIPRequest [mkTransitIPRequest T D2]) c1
           = Some (mkConnectorTransitIPResponse [mkTransitIPResponse OK ""], c2)
         ∧ transitIPTarget nid T c2 = Some (D2, c2))
  ∧ (∀ T D,
       ∃ c1 c2,
         HandleConnectorTransitIPRequest nid
           (mkConnectorTransitIPRequest [mkTransitIPRequest T D]) (idle m)
         = Some (mkConnectorTransitIPResponse [mkTransitIPResponse OK ""], c1)
         ∧ HandleConnectorTransitIPRequest nid
             (mkConnectorTransitIPRequest [mkTransitIPRequest T D]) c1
           = Some (mkConnectorTransitIPResponse [mkTransitIPResponse OK ""], c2)
         ∧ transitIPTarget nid T c2 = Some (D, c2)).
Proof.
  assert (Hone : ∀ m0 T D,
    HandleConnectorTransitIPRequest nid
      (mkConnectorTransitIPRequest [mkTransitIPRequest T D]) (idle m0)
    = Some (mkConnectorTransitIPResponse [mkTransitIPResponse OK ""],
            idle (apply_pair nid (mkTransitIPRequest T D) m0))).
  { intros m0 T D. rewrite Handle_idle; simpl. unfold outcome_of.
    assert (is_dup [] (mkTransitIPRequest T D) = false) as ->; [|done].
    apply is_dup_false. set_solver. }
  assert (Hget : ∀ m0 T D,
    transitIPTarget nid T (idle (apply_pair nid (mkTransitIPRequest T D) m0))
    = Some (D, idle (apply_pair nid (mkTransitIPRequest T D) m0))).
  { intros m0 T D. rewrite transitIPTarget_idle, mapping_apply_pair; simpl.
    by rewrite decide_True. }
  split; [|split].
  - intros batch i p Hp Hfresh.
    exists (outcomes [] batch), (idle (registry_after nid [] batch m)).
    split; [apply Handle_idle|]. split.
    + rewrite outcomes_lookup, Hp; simpl. unfold outcome_of.
      apply is_dup_false in Hfresh. by rewrite Hfresh.
    + rewrite transitIPTarget_idle. do 2 f_equal.
      apply is_dup_false in Hfresh.
      assert (registry_after nid [] batch m
              = registry_after nid (take i batch ++ [p]) (drop (S i) batch)
                  (apply_pair nid p (registry_after nid [] (take i batch) m)))
        as ->.
      { rewrite <- (take_drop_middle batch i p Hp) at 1.
        rewrite registry_after_app; simpl. by rewrite Hfresh. }
      rewrite mapping_registry_after_seen by (rewrite fmap_app; set_solver).
      rewrite mapping_apply_pair. by rewrite decide_True.
  - intros T D1 D2. eexists _, _.
    rewrite Hone. split; [done|]. rewrite Hget. split; [done|].
    rewrite Hone. split; [done|]. by rewrite Hget.
  - intros T D. eexists _, _.
    rewrite Hone. split; [done|]. rewrite Hone. split; [done|]. by rewrite Hget.
Qed.

(** C4.  [transitIPTarget] always returns and leaves the connector as it
    was; where no mapping exists for [(nid, tip)] it returns the zero
    address: in particular for a peer without a submap, on a fresh
    connector, and for a peer that never registered, whatever the other
    peers did since the connector was created. *)
Theorem C4_lookup_total (nid : NodeID) (tip : Addr) :
  (∀ m, ∃ a, transitIPTarget nid tip (idle m) = Some (a, idle m))
  ∧ (∀ m, mapping m nid tip = None →
          transitIPTarget nid tip (idle m) = Some (zeroAddr, idle m))
  ∧ (∀ m, submap m nid = None →
          transitIPTarget nid tip (idle m) = Some (zeroAddr, idle m))
  ∧ transitIPTarget nid tip zeroConn25 = Some (zeroAddr, zeroConn25)
  ∧ (∀ os, Forall (λ o, registering_peer o ≠ Some nid) os →
           ∃ c, run_ops os zeroConn25 = Some (tt, c)
                ∧ transitIPTarget nid tip c = Some (zeroAddr, c)).
Proof.
  split; [|split; [|split; [|split]]].
  - intros m. rewrite transitIPTarget_idle. by eexists.
  - intros m Hm. by rewrite transitIPTarget_idle, Hm.
  - intros m Hm. by rewrite transitIPTarget_idle, mapping_submap, Hm.
  - done.
  - intros os Hos. destruct (run_ops_idle os None) as (m' & E & F).
    exists (idle m'). split; [done|].
    by rewrite transitIPTarget_idle, mapping_submap, (F nid Hos).
Qed.

(** C7.  A registration by peer [P1] leaves the submap of every other peer
    [P2] as it was, so [transitIPTarget] for [P2] returns the same address
    before and after. *)
Theorem C7_cross_peer_isolation (P1 P2 : NodeID) (batch : list TransitIPRequest)
    (m : registry) (T : Addr) :
  P1 ≠ P2 →
  ∃ rs m' a,
    HandleConnectorTransitIPRequest P1 (mkConnectorTransitIPRequest batch) (idle m)
    = Some (rs, idle m')
    ∧ submap m' P2 = submap m P2
    ∧ transitIPTarget P2 T (idle m) = Some (a, idle m)
    ∧ transitIPTarget P2 T (idle m') = Some (a, idle m').
Proof.
  intros Hne. eexists _, _, _. rewrite Handle_idle. split; [done|].
  assert (submap (registry_after P1 [] batch m) P2 = submap m P2) as Hsub
    by (by apply submap_registry_after_ne).
  split; [done|]. rewrite !transitIPTarget_idle.
  split; [done|]. by rewrite !mapping_submap, Hsub.
Qed.

Lemma C7_cross_peer_isolation_witness :
  ∃ rs m' a,
    HandleConnectorTransitIPRequest 1
      (mkConnectorTransitIPRequest
         [mkTransitIPRequest (AddrFrom4 100 64 0 1) (AddrFrom4 10 0 0 1)])
      (idle (Some {[ 2 := {[ AddrFrom4 100 64 0 1 := AddrFrom4 10 0 0 9 ]} ]}))
    = Some (rs, idle m')
    ∧ submap m' 2
      = submap (Some {[ 2 := {[ AddrFrom4 100 64 0 1 := AddrFrom4 10 0 0 9 ]} ]}) 2
    ∧ transitIPTarget 2 (AddrFrom4 100 64 0 1)
        (idle (Some {[ 2 := {[ AddrFrom4 100 64 0 1 := AddrFrom4 10 0 0 9 ]} ]}))
      = Some (a, idle (Some {[ 2 := {[ AddrFrom4 100 64 0 1 := AddrFrom4 10 0 0 9 ]} ]}))
    ∧ transitIPTarget 2 (AddrFrom4 100 64 0 1) (idle m') = Some (a, idle m').
Proof.
  apply (C7_cross_peer_isolation 1 2). lia.
Defined.

(** C8.  An empty batch returns an empty outcome list and leaves the
    connector, whatever its state, exactly as it was. *)
Theorem C8_empty_batch (nid : NodeID) (c : Conn25) :
  HandleConnectorTransitIPRequest nid (mkConnectorTransitIPRequest []) c
  = Some (mkConnectorTransitIPResponse [], c).
Proof. reflexivity. Qed.

(** C9.  In every state reachable from [Conn25{}] by registrations and
    lookups, each peer that has a submap has at least one mapping in it;
    a peer gains a submap only through a registration of its own, and
    the submap then already holds a mapping; and a registration none of
    whose outcomes is [OK] (which only an empty batch achieves, the first
    pair of a batch never being a duplicate) leaves the connector
    unchanged. *)
Theorem C9_no_empty_submap :
  (∀ c, reachable c →
        ∀ mm nid pm, transitIPs c = Some mm → mm !! nid = Some pm → pm ≠ ∅)
  ∧ (∀ c o c' nid pm,
       reachable c →
       run_op o c = Some (tt, c') →
       submap (transitIPs c) nid = None →
       submap (transitIPs c') nid = Some pm →
       registering_peer o = Some nid ∧ pm ≠ ∅)
  ∧ (∀ c nid batch rs c',
       reachable c →
       HandleConnectorTransitIPRequest nid (mkConnectorTransitIPRequest batch) c
       = Some (mkConnectorTransitIPResponse rs, c') →
       Forall (λ r, Code r ≠ OK) rs →
       c' = c).
Proof.
  split; [|split].
  - intros c Hc mm nid pm Hmm Hpm.
    destruct (reachable_idle c Hc) as (m & -> & Hm). simpl in Hmm. subst m.
    by apply (Hm nid pm).
  - intros c o c' nid pm Hc Hrun Hbefore Hafter.
    assert (reachable c') as Hc' by (by eapply reachable_step).
    destruct (reachable_idle c Hc) as (m & -> & _).
    destruct (reachable_idle c' Hc') as (m' & -> & Hm').
    simpl in Hbefore, Hafter. split; [|by apply (Hm' nid pm)].
    destruct (decide (registering_peer o = Some nid)) as [|Hn]; [done|].
    destruct (run_op_idle o m) as (m1 & E1 & F1).
    rewrite E1 in Hrun. injection Hrun as <-.
    rewrite (F1 nid Hn), Hbefore in Hafter. done.
  - intros c nid batch rs c' Hc Hrun Hall.
    destruct (reachable_idle c Hc) as (m & -> & _).
    rewrite Handle_idle in Hrun. simplify_eq/=.
    destruct batch as [|p l]; [done|]. simpl in Hall.
    apply Forall_cons in Hall as [Hp _]. exfalso. apply Hp.
    unfold outcome_of.
    assert (is_dup [] p = false) as ->; [|done].
    apply is_dup_false. set_solver.
Qed.

(** C10.  A pair whose destination is the zero address is registered with
    [OK]; afterwards a mapping exists, yet [transitIPTarget] returns the
    zero address, as it does on any registry without a mapping for that
    peer and transit address.  The zero address is accepted as a transit
    address like any other. *)
Theorem C10_zero_address (nid : NodeID) (T D : Addr) (m : registry) :
  (∃ m1,
     HandleConnectorTransitIPRequest nid
       (mkConnectorTransitIPRequest [mkTransitIPRequest T zeroAddr]) (idle m)
     = Some (mkConnectorTransitIPResponse [mkTransitIPResponse OK ""], idle m1)
     ∧ mapping m1 nid T = Some zeroAddr
     ∧ transitIPTarget nid T (idle m1) = Some (zeroAddr, idle m1)
     ∧ ∀ m0, mapping m0 nid T = None →
             fst <$> transitIPTarget nid T (idle m0)
             = fst <$> transitIPTarget nid T (idle m1))
  ∧ (∃ m2,
       HandleConnectorTransitIPRequest nid
         (mkConnectorTransitIPRequest [mkTransitIPRequest zeroAddr D]) (idle m)
       = Some (mkConnectorTransitIPResponse [mkTransitIPResponse OK ""], idle m2)
       ∧ transitIPTarget nid zeroAddr (idle m2) = Some (D, idle m2)).
Proof.
  assert (Hone : ∀ p,
    HandleConnectorTransitIPRequest nid (mkConnectorTransitIPRequest [p]) (idle m)
    = Some (mkConnectorTransitIPResponse [mkTransitIPResponse OK ""],
            idle (apply_pair nid p m))).
  { intros p. rewrite Handle_idle; simpl. unfold outcome_of.
    assert (is_dup [] p = false) as ->; [|done].
    apply is_dup_false. set_solver. }
  split.
  - eexists. rewrite Hone. split; [done|].
    assert (mapping (apply_pair nid (mkTransitIPRequest T zeroAddr) m) nid T
            = Some zeroAddr) as Hm1
      by (rewrite mapping_apply_pair; by rewrite decide_True).
    split; [done|]. rewrite !transitIPTarget_idle, Hm1. split; [done|].
    intros m0 Hm0. by rewrite transitIPTarget_idle, Hm0.
  - eexists. rewrite Hone. split; [done|].
    rewrite transitIPTarget_idle, mapping_apply_pair. by rewrite decide_True.
Qed.

Example lookup_after_two_pairs :
  transitIPTarget 7 ex_T1 (idle ex_after_both) = Some (ex_D1, idle ex_after_both)
  ∧ transitIPTarget 7 ex_T2 (idle ex_after_first) = Some (zeroAddr, idle ex_after_first)
  ∧ transitIPTarget 8 ex_T1 (idle ex_after_both) = Some (zeroAddr, idle ex_after_both).
Proof. repeat split; vm_compute; reflexivity. Qed.

Example handle_while_locked :
  HandleConnectorTransitIPRequest 7 (mkConnectorTransitIPRequest ex_batch)
    (mkConn25 true None) = None.
Proof. reflexivity. Qed.

(** ** Lock scope *)





(** ** The closed-pipe classifiers *)

Example IsClosedPipeError_samples :
  neterror.IsClosedPipeError linux (Some (Errno 32)) = true
  ∧ neterror.IsClosedPipeError linux
      (Some (wrapError "write" (Some io_ErrClosedPipe))) = true
  ∧ neterror.IsClosedPipeError linux
      (Some (joinError [errorString "x"; wrapError "op" (Some (Errno 107))])) = true
  ∧ neterror.IsClosedPipeError linux (Some (errorString "unrelated")) = false
  ∧ neterror.IsClosedPipeError linux (Some (Errno 232)) = false
  ∧ neterror.IsClosedPipeError linux None = false
  ∧ localapi.IsClosedPipeError linux (Some (Errno 32)) = true
  ∧ localapi.IsClosedPipeError linux (Some fs_ErrClosed) = false.
Proof. repeat split. Qed.

Example IsClosedPipeError_windows (epipe enotconn : Z) :
  neterror.IsClosedPipeError (mkPlatform "windows" epipe enotconn)
    (Some (wrapError "write" (Some (Errno 232)))) = true.
Proof. reflexivity. Qed.







(** ** Further properties of the registry *)

Lemma first_with_transit_None T l :
  first_with_transit T l = None ↔ T ∉ TransitIP <$> l.
Proof.
  induction l as [|p l IH]; simpl; [set_solver|].
  case_decide as Hp; [set_solver|]. rewrite IH. set_solver.
Qed.

Lemma first_with_transit_Some T l p :
  first_with_transit T l = Some p → TransitIP p = T ∧ p ∈ l.
Proof.
  induction l as [|q l IH]; simpl; [done|].
  case_decide as Hq.
  - intros [= <-]. split; [done | apply list_elem_of_here].
  - intros H. destruct (IH H) as [? ?]. split; [done|].
    by apply list_elem_of_further.
Qed.

(** The mapping of the registering peer after a loop, for an address not
    seen before the loop: the first pair with that address decides. *)
Lemma mapping_registry_after nid T l : ∀ e m,
  T ∉ TransitIP <$> e →
  mapping (registry_after nid e l m) nid T
  = match first_with_transit T l with
    | Some p => Some (DestinationIP p)
    | None => mapping m nid T
    end.
Proof.
  induction l as [|p l IH]; intros e m HT; simpl; [done|].
  case_decide as Hp.
  - assert (is_dup e p = false) as -> by (apply is_dup_false; by rewrite Hp).
    rewrite mapping_registry_after_seen by (rewrite fmap_app; set_solver).
    rewrite mapping_apply_pair. by rewrite decide_True.
  - rewrite IH by (rewrite fmap_app; set_solver).
    destruct (first_with_transit T l); [done|].
    destruct (is_dup e p); [done|].
    rewrite mapping_apply_pair. rewrite decide_False; [done|].
    intros [_ ->]. done.
Qed.

Lemma elem_of_mapped_transits m nid T :
  T ∈ mapped_transits m nid ↔ is_Some (mapping m nid T).
Proof.
  unfold mapped_transits. rewrite elem_of_dom, mapping_submap.
  destruct (submap m nid) as [pm|]; simpl; [done|].
  rewrite lookup_empty. done.
Qed.

(** X1.  After a registration, the address a lookup returns for the
    registering peer is decided by the first pair of the batch with that
    transit address; for a transit address the batch does not mention the
    lookup returns what it returned before. *)
Theorem X1_first_pair_decides (nid : NodeID) (batch : list TransitIPRequest)
    (m : registry) (T : Addr) :
  ∃ rs m',
    HandleConnectorTransitIPRequest nid (mkConnectorTransitIPRequest batch) (idle m)
    = Some (rs, idle m')
    ∧ mapping m' nid T
      = match first_with_transit T batch with
        | Some p => Some (DestinationIP p)
        | None => mapping m nid T
        end
    ∧ ∃ a0,
        transitIPTarget nid T (idle m) = Some (a0, idle m)
        ∧ transitIPTarget nid T (idle m')
          = Some (match first_with_transit T batch with
                  | Some p => DestinationIP p
                  | None => a0
                  end, idle m').
Proof.
  eexists _, _. rewrite Handle_idle. split; [done|].
  assert (mapping (registry_after nid [] batch m) nid T
          = match first_with_transit T batch with
            | Some p => Some (DestinationIP p)
            | None => mapping m nid T
            end) as Hmap
    by (apply mapping_registry_after; set_solver).
  split; [done|]. eexists. rewrite !transitIPTarget_idle. split; [done|].
  rewrite Hmap. by destruct (first_with_transit T batch).
Qed.

(** X2.  After a registration the registering peer has a mapping for
    exactly the transit addresses it had one for before and those the
    batch mentions, rejected duplicates included. *)
Theorem X2_mapped_transits_after_batch (nid : NodeID)
    (batch : list TransitIPRequest) (m : registry) :
  ∃ rs m',
    HandleConnectorTransitIPRequest nid (mkConnectorTransitIPRequest batch) (idle m)
    = Some (rs, idle m')
    ∧ mapped_transits m' nid
      = mapped_transits m nid ∪ list_to_set (TransitIP <$> batch).
Proof.
  eexists _, _. rewrite Handle_idle. split; [done|].
  apply set_eq. intros T.
  rewrite elem_of_union, elem_of_list_to_set, !elem_of_mapped_transits.
  rewrite mapping_registry_after by set_solver.
  destruct (first_with_transit T batch) as [p|] eqn:E.
  - apply first_with_transit_Some in E as [<- Hp].
    split; [|by eexists]. intros _. right.
    apply list_elem_of_fmap. by exists p.
  - apply first_with_transit_None in E. naive_solver.
Qed.

Lemma mapping_is_Some_apply_pair nid p m P T :
  is_Some (mapping m P T) → is_Some (mapping (apply_pair nid p m) P T).
Proof. intros H. rewrite mapping_apply_pair. by case_decide. Qed.

Lemma mapping_is_Some_registry_after nid P T l : ∀ e m,
  is_Some (mapping m P T) → is_Some (mapping (registry_after nid e l m) P T).
Proof.
  induction l as [|p l IH]; intros e m H; simpl; [done|].
  apply IH. destruct (is_dup e p); [done|].
  by apply mapping_is_Some_apply_pair.
Qed.

Lemma run_op_idle_grows o m :
  ∃ m', run_op o (idle m) = Some (tt, idle m')
        ∧ ∀ P, mapped_transits m P ⊆ mapped_transits m' P.
Proof.
  destruct o as [nid [l]|nid tip]; simpl; unfold bind.
  - rewrite Handle_idle. eexists; split; [done|].
    intros P T. rewrite !elem_of_mapped_transits.
    apply mapping_is_Some_registry_after.
  - rewrite transitIPTarget_idle. by eexists.
Qed.

(** X3.  No sequence of registrations and lookups ever removes a mapping:
    whatever the operations and whoever makes them, every peer still has a
    mapping for each transit address it had one for. *)
Theorem X3_mappings_never_removed (os : list op) (m : registry) :
  ∃ m', run_ops os (idle m) = Some (tt, idle m')
        ∧ ∀ P, mapped_transits m P ⊆ mapped_transits m' P.
Proof.
  revert m. induction os as [|o os IH]; intros m; simpl.
  - by exists m.
  - destruct (run_op_idle_grows o m) as (m1 & E1 & G1).
    destruct (IH m1) as (m2 & E2 & G2).
    exists m2. unfold bind. rewrite E1. split; [done|].
    intros P. transitivity (mapped_transits m1 P); [apply G1 | apply G2].
Qed.

Lemma apply_pair_id nid p m :
  mapping m nid (TransitIP p) = Some (DestinationIP p) → apply_pair nid p m = m.
Proof.
  unfold mapping, apply_pair. destruct m as [mm|]; simpl; [|done].
  destruct (mm !! nid) as [pm|] eqn:E; simpl; [|done].
  intros Hp. by rewrite (insert_id pm), (insert_id mm).
Qed.

(** A pair that the loop applies is what the registry holds at its end. *)
Lemma mapping_registry_after_first nid l : ∀ e m i p,
  l !! i = Some p →
  is_dup (e ++ take i l) p = false →
  mapping (registry_after nid e l m) nid (TransitIP p) = Some (DestinationIP p).
Proof.
  induction l as [|q l IH]; intros e m i p Hp Hd; [done|].
  destruct i as [|i]; simpl in Hp, Hd |- *.
  - injection Hp as ->. rewrite app_nil_r in Hd. rewrite Hd.
    rewrite mapping_registry_after_seen by (rewrite fmap_app; set_solver).
    rewrite mapping_apply_pair. by rewrite decide_True.
  - apply (IH _ _ i); [done|]. by rewrite <- app_assoc.
Qed.

(** A loop all of whose applied pairs are already in the registry changes
    nothing. *)
Lemma registry_after_fixed nid l : ∀ e m,
  (∀ i p, l !! i = Some p → is_dup (e ++ take i l) p = false →
          mapping m nid (TransitIP p) = Some (DestinationIP p)) →
  registry_after nid e l m = m.
Proof.
  induction l as [|q l IH]; intros e m H; simpl; [done|].
  assert ((if is_dup e q then m else apply_pair nid q m) = m) as ->.
  { destruct (is_dup e q) eqn:Hd; [done|].
    apply apply_pair_id. apply (H 0%nat); [done|]. by rewrite app_nil_r. }
  apply IH. intros i p Hp Hd. apply (H (S i)); [done|].
  simpl. by rewrite (cons_middle q), app_assoc.
Qed.

(** X4.  Sending the same batch again, in a second call, produces the same
    outcomes and leaves the connector exactly as the first call left it. *)
Theorem X4_batch_idempotent (nid : NodeID) (batch : list TransitIPRequest)
    (m : registry) :
  ∃ rs c1,
    HandleConnectorTransitIPRequest nid (mkConnectorTransitIPRequest batch) (idle m)
    = Some (rs, c1)
    ∧ HandleConnectorTransitIPRequest nid (mkConnectorTransitIPRequest batch) c1
      = Some (rs, c1).
Proof.
  eexists _, _. rewrite !Handle_idle. split; [done|].
  rewrite registry_after_fixed; [done|].
  intros i p Hp Hd. by apply (mapping_registry_after_first nid batch [] m i).
Qed.

Lemma apply_pair_comm_peers P1 P2 p q m :
  P1 ≠ P2 →
  apply_pair P1 p (apply_pair P2 q m) = apply_pair P2 q (apply_pair P1 p m).
Proof.
  intros Hne. unfold apply_pair; simpl.
  rewrite !lookup_insert_ne by done. f_equal. by apply insert_insert_ne.
Qed.

Lemma registry_after_apply_pair_comm P1 P2 q l : ∀ e m,
  P1 ≠ P2 →
  registry_after P1 e l (apply_pair P2 q m)
  = apply_pair P2 q (registry_after P1 e l m).
Proof.
  induction l as [|p l IH]; intros e m Hne; simpl; [done|].
  destruct (is_dup e p); [by apply IH|].
  rewrite apply_pair_comm_peers by done. by apply IH.
Qed.

Lemma registry_after_comm_peers P1 P2 e1 l1 l2 : ∀ e2 m,
  P1 ≠ P2 →
  registry_after P1 e1 l1 (registry_after P2 e2 l2 m)
  = registry_after P2 e2 l2 (registry_after P1 e1 l1 m).
Proof.
  induction l2 as [|q l2 IH]; intros e2 m Hne; simpl; [done|].
  rewrite IH by done. destruct (is_dup e2 q); [done|].
  by rewrite registry_after_apply_pair_comm.
Qed.

(** X5.  Registrations of two different peers commute: made in either
    order they produce the same outcomes and the same connector. *)
Theorem X5_peers_commute (P1 P2 : NodeID) (b1 b2 : list TransitIPRequest)
    (m : registry) :
  P1 ≠ P2 →
  ∃ r1 r2 ca cb c,
    HandleConnectorTransitIPRequest P1 (mkConnectorTransitIPRequest b1) (idle m)
    = Some (r1, ca)
    ∧ HandleConnectorTransitIPRequest P2 (mkConnectorTransitIPRequest b2) ca
      = Some (r2, c)
    ∧ HandleConnectorTransitIPRequest P2 (mkConnectorTransitIPRequest b2) (idle m)
      = Some (r2, cb)
    ∧ HandleConnectorTransitIPRequest P1 (mkConnectorTransitIPRequest b1) cb
      = Some (r1, c).
Proof.
  intros Hne. eexists _, _, _, _, _. rewrite !Handle_idle.
  split; [done|]. split; [done|]. split; [done|].
  by rewrite registry_after_comm_peers.
Qed.

Lemma X5_peers_commute_witness :
  ∃ r1 r2 ca cb c,
    HandleConnectorTransitIPRequest 1 (mkConnectorTransitIPRequest ex_batch) (idle None)
    = Some (r1, ca)
    ∧ HandleConnectorTransitIPRequest 2
        (mkConnectorTransitIPRequest [mkTransitIPRequest ex_T1 ex_D2]) ca
      = Some (r2, c)
    ∧ HandleConnectorTransitIPRequest 2
        (mkConnectorTransitIPRequest [mkTransitIPRequest ex_T1 ex_D2]) (idle None)
      = Some (r2, cb)
    ∧ HandleConnectorTransitIPRequest 1 (mkConnectorTransitIPRequest ex_batch) cb
      = Some (r1, c).
Proof. apply (X5_peers_commute 1 2). lia. Defined.

(** Pairs that repeat none of the addresses in [e0] are handled as if [e0]
    had not come before. *)
Lemma is_dup_skip_earlier e0 e q :
  is_dup e0 q = false → is_dup (e0 ++ e) q = is_dup e q.
Proof.
  intros H0. apply is_dup_false in H0. unfold is_dup.
  apply bool_decide_ext. rewrite fmap_app, elem_of_app. naive_solver.
Qed.

Lemma outcomes_skip_earlier e0 l : ∀ e,
  Forall (λ q, is_dup e0 q = false) l →
  outcomes (e0 ++ e) l = outcomes e l.
Proof.
  induction l as [|p l IH]; intros e H; simpl; [done|].
  apply Forall_cons in H as [Hp Hl].
  unfold outcome_of. rewrite (is_dup_skip_earlier e0 e p Hp).
  f_equal. rewrite <- app_assoc. by apply IH.
Qed.

Lemma registry_after_skip_earlier nid e0 l : ∀ e m,
  Forall (λ q, is_dup e0 q = false) l →
  registry_after nid (e0 ++ e) l m = registry_after nid e l m.
Proof.
  induction l as [|p l IH]; intros e m H; simpl; [done|].
  apply Forall_cons in H as [Hp Hl].
  rewrite (is_dup_skip_earlier e0 e p Hp).
  rewrite <- app_assoc. by apply IH.
Qed.

(** X6.  A batch may be sent in two calls: when no pair of the second part
    repeats a transit address of the first part, registering the two parts
    one call after the other gives the outcomes and the connector of
    registering them as one batch. *)
Theorem X6_batch_split (nid : NodeID) (l1 l2 : list TransitIPRequest)
    (m : registry) :
  Forall (λ q, is_dup l1 q = false) l2 →
  ∃ r1 r2 c1 c,
    HandleConnectorTransitIPRequest nid (mkConnectorTransitIPRequest l1) (idle m)
    = Some (mkConnectorTransitIPResponse r1, c1)
    ∧ HandleConnectorTransitIPRequest nid (mkConnectorTransitIPRequest l2) c1
      = Some (mkConnectorTransitIPResponse r2, c)
    ∧ HandleConnectorTransitIPRequest nid
        (mkConnectorTransitIPRequest (l1 ++ l2)) (idle m)
      = Some (mkConnectorTransitIPResponse (r1 ++ r2), c).
Proof.
  intros Hfresh. eexists _, _, _, _. rewrite !Handle_idle.
  split; [done|]. split; [done|].
  rewrite outcomes_app, registry_after_app; simpl.
  rewrite <- (outcomes_skip_earlier l1 l2 [] Hfresh).
  rewrite <- (registry_after_skip_earlier nid l1 l2 [] _ Hfresh).
  by rewrite app_nil_r.
Qed.

Lemma X6_batch_split_witness :
  ∃ r1 r2 c1 c,
    HandleConnectorTransitIPRequest 7
      (mkConnectorTransitIPRequest [mkTransitIPRequest ex_T1 ex_D1]) (idle None)
    = Some (mkConnectorTransitIPResponse r1, c1)
    ∧ HandleConnectorTransitIPRequest 7
        (mkConnectorTransitIPRequest [mkTransitIPRequest ex_T2 ex_D2]) c1
      = Some (mkConnectorTransitIPResponse r2, c)
    ∧ HandleConnectorTransitIPRequest 7
        (mkConnectorTransitIPRequest
           ([mkTransitIPRequest ex_T1 ex_D1] ++ [mkTransitIPRequest ex_T2 ex_D2]))
        (idle None)
      = Some (mkConnectorTransitIPResponse (r1 ++ r2), c).
Proof.
  apply (X6_batch_split 7 [mkTransitIPRequest ex_T1 ex_D1]
           [mkTransitIPRequest ex_T2 ex_D2] None).
  repeat constructor.
Defined.

Lemma count_ok_outcomes l : ∀ e,
  count_ok (outcomes e l)
  = size (list_to_set (TransitIP <$> l) ∖ list_to_set (TransitIP <$> e) : gset Addr).
Proof.
  unfold count_ok.
  induction l as [|p l IH]; intros e.
  - symmetry. apply size_empty_iff. set_solver.
  - cbn [outcomes]. unfold outcome_of. destruct (is_dup e p) eqn:Hd.
    + rewrite filter_cons_False by done. rewrite IH.
      apply is_dup_true in Hd. f_equal. rewrite fmap_app, list_to_set_app_L.
      rewrite fmap_cons. cbn [list_to_set fmap list_fmap]. 
      apply set_eq. intros x. rewrite !elem_of_difference, !elem_of_union, !elem_of_singleton, !elem_of_list_to_set.
      rewrite elem_of_empty. split; [|naive_solver].
      intros [Hx Hn]. split; [right; done|]. naive_solver.
    + rewrite filter_cons_True by done. cbn [length]. rewrite IH.
      apply is_dup_false in Hd.
      assert (list_to_set (TransitIP <$> p :: l) ∖ list_to_set (TransitIP <$> e)
              = ({[TransitIP p]} : gset Addr)
                ∪ list_to_set (TransitIP <$> l)
                    ∖ list_to_set (TransitIP <$> e ++ [p])) as ->.
      { rewrite fmap_app, list_to_set_app_L, fmap_cons.
        cbn [list_to_set fmap list_fmap].
        apply set_eq. intros x.
        rewrite !elem_of_union, !elem_of_difference, !elem_of_union,
          !elem_of_singleton, !elem_of_list_to_set, elem_of_empty.
        destruct (decide (x = TransitIP p)) as [->|Hx]; naive_solver. }
      rewrite (size_union ({[TransitIP p]} : gset Addr)
                 (list_to_set (TransitIP <$> l)
                    ∖ list_to_set (TransitIP <$> e ++ [p]))), size_singleton;
        [done|].
      intros x. rewrite elem_of_singleton, elem_of_difference, fmap_app,
        list_to_set_app_L, elem_of_union.
      cbn [list_to_set fmap list_fmap]. intros -> [_ Hn]. apply Hn. right.
      apply elem_of_union. left. by apply elem_of_singleton.
Qed.

(** X7.  A registration answers [OK] once for each distinct transit
    address of its batch: the number of [OK] outcomes is the number of
    different transit addresses. *)
Theorem X7_one_ok_per_transit (nid : NodeID) (batch : list TransitIPRequest)
    (m : registry) :
  ∃ rs c',
    HandleConnectorTransitIPRequest nid (mkConnectorTransitIPRequest batch) (idle m)
    = Some (mkConnectorTransitIPResponse rs, c')
    ∧ count_ok rs = size (list_to_set (TransitIP <$> batch) : gset Addr)
    ∧ (length rs - count_ok rs)%nat
      = (length batch - size (list_to_set (TransitIP <$> batch) : gset Addr))%nat.
Proof.
  eexists _, _. rewrite Handle_idle. split; [done|].
  rewrite count_ok_outcomes, outcomes_length; simpl.
  replace (list_to_set (TransitIP <$> batch) ∖ ∅ : gset Addr)
    with (list_to_set (TransitIP <$> batch) : gset Addr) by set_solver.
  done.
Qed.

(** X8.  The mutex is never left held: from [Conn25{}] on, every
    registration and lookup returns and leaves a connector on which the
    next one returns too.  On a connector whose mutex is held, a lookup
    and a registration with at least one pair do not return. *)
Theorem X8_mutex_released :
  (∀ c, reachable c →
        mu c = false
        ∧ ∀ o, ∃ c', run_op o c = Some (tt, c') ∧ reachable c' ∧ mu c' = false)
  ∧ (∀ m nid p rest,
       HandleConnectorTransitIPRequest nid
         (mkConnectorTransitIPRequest (p :: rest)) (mkConn25 true m) = None)
  ∧ (∀ m nid tip, transitIPTarget nid tip (mkConn25 true m) = None).
Proof.
  split; [|split; [|done]].
  - intros c Hc. destruct (reachable_idle c Hc) as (m & -> & _).
    split; [done|]. intros o.
    destruct (run_op_idle o m) as (m' & E & _).
    exists (idle m'). split; [done|]. split; [|done].
    by eapply reachable_step.
  - intros m nid p rest. unfold HandleConnectorTransitIPRequest; simpl.
    unfold bind at 1 2. unfold loop_body; simpl. by rewrite lookup_empty.
Qed.

Lemma outcomes_transit_only l1 : ∀ l2 e1 e2,
  TransitIP <$> e1 = TransitIP <$> e2 →
  TransitIP <$> l1 = TransitIP <$> l2 →
  outcomes e1 l1 = outcomes e2 l2.
Proof.
  induction l1 as [|p l1 IH]; intros [|q l2] e1 e2 He Hl; simpl in *; try done.
  injection Hl as Hpq Hl. unfold outcome_of, is_dup. rewrite He, Hpq.
  f_equal. apply IH; [|done]. rewrite !fmap_app, He. simpl. by rewrite Hpq.
Qed.

(** X9.  The outcomes of a registration depend on nothing but the sequence
    of transit addresses in the batch: not on the destinations, not on the
    peer, and not on what the registry already holds. *)
Theorem X9_outcomes_from_transits_only (nid1 nid2 : NodeID)
    (b1 b2 : list TransitIPRequest) (m1 m2 : registry) :
  TransitIP <$> b1 = TransitIP <$> b2 →
  ∃ rs c1 c2,
    HandleConnectorTransitIPRequest nid1 (mkConnectorTransitIPRequest b1) (idle m1)
    = Some (rs, c1)
    ∧ HandleConnectorTransitIPRequest nid2 (mkConnectorTransitIPRequest b2) (idle m2)
      = Some (rs, c2).
Proof.
  intros Hb. eexists _, _, _. rewrite !Handle_idle. split; [done|].
  by rewrite (outcomes_transit_only b1 b2 [] []).
Qed.

Lemma X9_outcomes_from_transits_only_witness :
  ∃ rs c1 c2,
    HandleConnectorTransitIPRequest 1
      (mkConnectorTransitIPRequest
         [mkTransitIPRequest ex_T1 ex_D1; mkTransitIPRequest ex_T1 ex_D2])
      (idle None)
    = Some (rs, c1)
    ∧ HandleConnectorTransitIPRequest 2
        (mkConnectorTransitIPRequest
           [mkTransitIPRequest ex_T1 ex_T2; mkTransitIPRequest ex_T1 zeroAddr])
        (idle ex_after_both)
      = Some (rs, c2).
Proof.
  apply (X9_outcomes_from_transits_only 1 2
           [mkTransitIPRequest ex_T1 ex_D1; mkTransitIPRequest ex_T1 ex_D2]
           [mkTransitIPRequest ex_T1 ex_T2; mkTransitIPRequest ex_T1 zeroAddr]
           None ex_after_both).
  reflexivity.
Defined.

Lemma apply_pair_comm_transits nid p q m :
  TransitIP p ≠ TransitIP q →
  apply_pair nid p (apply_pair nid q m) = apply_pair nid q (apply_pair nid p m).
Proof.
  intros Hne. unfold apply_pair; simpl.
  rewrite !lookup_insert_eq; simpl. rewrite !insert_insert_eq.
  do 2 f_equal. by apply insert_insert_ne.
Qed.

(** A loop over pairs with pairwise different, not yet seen transit
    addresses applies every pair in turn. *)
Lemma registry_after_nodup nid l : ∀ e m,
  NoDup (TransitIP <$> l) →
  Forall (λ q, is_dup e q = false) l →
  registry_after nid e l m = foldl (λ r p, apply_pair nid p r) m l
  ∧ outcomes e l = replicate (length l) zeroTransitIPResponse.
Proof.
  induction l as [|p l IH]; intros e m Hnd Hfresh; simpl; [done|].
  rewrite fmap_cons in Hnd. apply NoDup_cons in Hnd as [Hp Hnd].
  apply Forall_cons in Hfresh as [Hep Hfresh].
  unfold outcome_of. rewrite Hep.
  destruct (IH (e ++ [p]) (apply_pair nid p m) Hnd) as [-> ->]; [|done].
  apply Forall_forall. intros q Hq.
  rewrite Forall_forall in Hfresh. specialize (Hfresh q Hq).
  apply is_dup_false. apply is_dup_false in Hfresh.
  rewrite fmap_app, elem_of_app. intros [?|Hqp]; [done|].
  apply list_elem_of_singleton in Hqp. apply Hp. rewrite <- Hqp.
  apply list_elem_of_fmap. by exists q.
Qed.

Lemma foldl_apply_pair_perm nid l1 l2 :
  l1 ≡ₚ l2 →
  NoDup (TransitIP <$> l1) →
  ∀ m, foldl (λ r p, apply_pair nid p r) m l1
       = foldl (λ r p, apply_pair nid p r) m l2.
Proof.
  induction 1 as [|x l1 l2 Hperm IH|x y l|l1 l2 l3 H12 IH12 H23 IH23];
    intros Hnd m; simpl.
  - done.
  - rewrite fmap_cons in Hnd. apply NoDup_cons in Hnd as [_ Hnd]. by apply IH.
  - rewrite !fmap_cons in Hnd. apply NoDup_cons in Hnd as [Hy _].
    rewrite (apply_pair_comm_transits nid x y); [done|].
    intros Heq. apply Hy. rewrite Heq. apply list_elem_of_here.
  - rewrite IH12 by done. apply IH23. by rewrite <- H12.
Qed.

(** X10.  The order of the pairs in a batch without repeated transit
    addresses does not matter: every pair is answered [OK] and any
    reordering of the batch leaves the same connector. *)
Theorem X10_order_irrelevant_without_duplicates (nid : NodeID)
    (b1 b2 : list TransitIPRequest) (m : registry) :
  NoDup (TransitIP <$> b1) →
  b1 ≡ₚ b2 →
  ∃ c,
    HandleConnectorTransitIPRequest nid (mkConnectorTransitIPRequest b1) (idle m)
    = Some (mkConnectorTransitIPResponse
              (replicate (length b1) (mkTransitIPResponse OK "")), c)
    ∧ HandleConnectorTransitIPRequest nid (mkConnectorTransitIPRequest b2) (idle m)
      = Some (mkConnectorTransitIPResponse
                (replicate (length b1) (mkTransitIPResponse OK "")), c).
Proof.
  intros Hnd Hperm.
  assert (NoDup (TransitIP <$> b2)) as Hnd2
    by (by rewrite <- Hperm).
  assert (∀ b, Forall (λ q, is_dup [] q = false) b) as Hfresh.
  { intros b. apply Forall_forall. intros q _. apply is_dup_false. set_solver. }
  destruct (registry_after_nodup nid b1 [] m Hnd (Hfresh b1)) as [R1 O1].
  destruct (registry_after_nodup nid b2 [] m Hnd2 (Hfresh b2)) as [R2 O2].
  eexists. rewrite !Handle_idle, O1, O2, R1, R2.
  rewrite (foldl_apply_pair_perm nid b1 b2 Hperm Hnd m).
  by rewrite (Permutation_length Hperm).
Qed.

Lemma X10_order_irrelevant_without_duplicates_witness :
  ∃ c,
    HandleConnectorTransitIPRequest 7
      (mkConnectorTransitIPRequest
         [mkTransitIPRequest ex_T1 ex_D1; mkTransitIPRequest ex_T2 ex_D2])
      (idle None)
    = Some (mkConnectorTransitIPResponse
              (replicate 2 (mkTransitIPResponse OK "")), c)
    ∧ HandleConnectorTransitIPRequest 7
        (mkConnectorTransitIPRequest
           [mkTransitIPRequest ex_T2 ex_D2; mkTransitIPRequest ex_T1 ex_D1])
        (idle None)
      = Some (mkConnectorTransitIPResponse
                (replicate 2 (mkTransitIPResponse OK "")), c).
Proof.
  apply (X10_order_irrelevant_without_duplicates 7
           [mkTransitIPRequest ex_T1 ex_D1; mkTransitIPRequest ex_T2 ex_D2]
           [mkTransitIPRequest ex_T2 ex_D2; mkTransitIPRequest ex_T1 ex_D1] None).
  - apply (bool_decide_unpack _). vm_compute. exact I.
  - apply perm_swap.
Defined.

(** ** Further properties of the closed-pipe classifiers *)






(** X13.  Whatever [localapi.IsClosedPipeError] reports as a closed pipe,
    the POSIX build of [neterror.IsClosedPipeError] reports too. *)
Theorem X13_localapi_within_neterror (pf : platform) (err : option error) :
  localapi.IsClosedPipeError pf err = true →
  neterror.IsClosedPipeError pf err = true.
Proof.
  unfold neterror.IsClosedPipeError, localapi.IsClosedPipeError.
  destruct (errors_Is err (Errno (expect pf))); [done|].
  intros ->. by rewrite !orb_true_r.
Qed.

Lemma X13_localapi_within_neterror_witness :
  localapi.IsClosedPipeError linux
    (Some (wrapError "write" (Some io_ErrClosedPipe))) = true
  ∧ neterror.IsClosedPipeError linux
      (Some (wrapError "write" (Some io_ErrClosedPipe))) = true.
Proof.
  split; [reflexivity|].
  apply (X13_localapi_within_neterror linux). reflexivity.
Defined.

(** ** Properties of the magic-address helper *)

Lemma As4_AddrFrom4 (a b c d : N) :
  (a < 256)%N → (b < 256)%N → (c < 256)%N → (d < 256)%N →
  As4 (AddrFrom4 a b c d) = Some (a, b, c, d).
Proof.
  intros Ha Hb Hc Hd. unfold As4, AddrFrom4; simpl.
  rewrite !N.shiftr_div_pow2.
  change (2 ^ 32)%N with 4294967296%N. change (2 ^ 24)%N with 16777216%N.
  change (2 ^ 16)%N with 65536%N. change (2 ^ 8)%N with 256%N.
  repeat f_equal; (zify; Z.to_euclidean_division_equations; lia).
Qed.

Lemma As4_z4 (ip : Addr) :
  addr_z ip = z4 →
  As4 ip
  = Some ((N.shiftr (addr_lo ip mod 2 ^ 32) 24 mod 256)%N,
          (N.shiftr (addr_lo ip mod 2 ^ 32) 16 mod 256)%N,
          (N.shiftr (addr_lo ip mod 2 ^ 32) 8 mod 256)%N,
          (addr_lo ip mod 2 ^ 32 mod 256)%N).
Proof. intros Hz. unfold As4. by rewrite bool_decide_eq_true_2. Qed.

Lemma ClientTransitIPForMagicIP_z4 (magic : Addr) :
  addr_z magic = z4 →
  ClientTransitIPForMagicIP magic
  = Some (AddrFrom4 169 254
            (N.shiftr (addr_lo magic mod 2 ^ 32) 8 mod 256)%N
            (addr_lo magic mod 2 ^ 32 mod 256)%N, None).
Proof.
  intros Hz. unfold ClientTransitIPForMagicIP, Is4.
  rewrite bool_decide_eq_true_2 by done. simpl. by rewrite As4_z4.
Qed.

(** X14.  [ClientTransitIPForMagicIP] never panics, and it fails exactly
    when the magic address is not an IPv4 address: then it returns the
    zero address with its fixed error.  An IPv4-mapped IPv6 address and
    the zero address are refused too. *)
Theorem X14_magic_ip_refused_unless_ip4 (magic : Addr) :
  ∃ a err,
    ClientTransitIPForMagicIP magic = Some (a, err)
    ∧ (err = None ↔ addr_z magic = z4)
    ∧ (addr_z magic ≠ z4 →
       a = zeroAddr
       ∧ err = Some (errorString
                       "bootleg transit ip for magic ip only deals with ip4 for now"))
    ∧ (Is4In6 magic = true → err ≠ None)
    ∧ ClientTransitIPForMagicIP zeroAddr
      = Some (zeroAddr,
              Some (errorString
                      "bootleg transit ip for magic ip only deals with ip4 for now")).
Proof.
  destruct (decide (addr_z magic = z4)) as [Hz|Hz].
  - eexists _, _. rewrite (ClientTransitIPForMagicIP_z4 magic Hz).
    split; [done|]. split; [done|]. split; [done|]. split; [|done].
    unfold Is4In6, Is6. rewrite (bool_decide_eq_true_2 (addr_z magic = z4)) by done.
    rewrite andb_false_r. done.
  - eexists _, _. unfold ClientTransitIPForMagicIP, Is4.
    rewrite bool_decide_eq_false_2 by done. simpl.
    split; [done|]. split; [split; done|]. split; [done|]. split; done.
Qed.

(** X15.  For an IPv4 magic address [a.b.c.d] the transit address is the
    IPv4 address [169.254.c.d], returned without error; applying the
    helper to a transit address returns it unchanged. *)
Theorem X15_magic_ip_to_link_local (magic : Addr) :
  addr_z magic = z4 →
  ∃ a b c d t,
    As4 magic = Some (a, b, c, d)
    ∧ ClientTransitIPForMagicIP magic = Some (t, None)
    ∧ t = AddrFrom4 169 254 c d
    ∧ Is4 t = true
    ∧ As4 t = Some (169%N, 254%N, c, d)
    ∧ ClientTransitIPForMagicIP t = Some (t, None).
Proof.
  intros Hz. eexists _, _, _, _, _.
  rewrite (As4_z4 magic Hz), (ClientTransitIPForMagicIP_z4 magic Hz).
  split; [done|]. split; [done|]. split; [done|]. split; [done|].
  set (c := (N.shiftr (addr_lo magic mod 2 ^ 32) 8 mod 256)%N).
  set (d := (addr_lo magic mod 2 ^ 32 mod 256)%N).
  assert (c < 256)%N as Hc by (apply N.mod_lt; done).
  assert (d < 256)%N as Hd by (apply N.mod_lt; done).
  assert (As4 (AddrFrom4 169 254 c d) = Some (169%N, 254%N, c, d)) as HAs4
    by (apply As4_AddrFrom4; done).
  split; [done|].
  assert (Is4 (AddrFrom4 169 254 c d) = true) as HIs4 by done.
  unfold ClientTransitIPForMagicIP. by rewrite HIs4, HAs4.
Qed.

Lemma X15_magic_ip_to_link_local_witness :
  ∃ a b c d t,
    As4 (AddrFrom4 100 64 3 7) = Some (a, b, c, d)
    ∧ ClientTransitIPForMagicIP (AddrFrom4 100 64 3 7) = Some (t, None)
    ∧ t = AddrFrom4 169 254 c d
    ∧ Is4 t = true
    ∧ As4 t = Some (169%N, 254%N, c, d)
    ∧ ClientTransitIPForMagicIP t = Some (t, None).
Proof. apply (X15_magic_ip_to_link_local (AddrFrom4 100 64 3 7)). reflexivity. Defined.

Lemma lo_byte2 (lo : N) :
  (lo mod 4294967296 / 256 mod 256 = lo mod 65536 / 256)%N.
Proof. zify; Z.to_euclidean_division_equations; lia. Qed.

Lemma lo_byte3 (lo : N) :
  (lo mod 4294967296 mod 256 = lo mod 65536 mod 256)%N.
Proof. zify; Z.to_euclidean_division_equations; lia. Qed.

Lemma lo_low16 (lo : N) :
  (lo mod 65536 / 256 * 256 + lo mod 65536 mod 256 = lo mod 65536)%N.
Proof. zify; Z.to_euclidean_division_equations; lia. Qed.

(** X16.  Two IPv4 magic addresses get the same transit address exactly
    when they agree in their last two bytes (the low 16 bits): the first
    two bytes of the magic address are lost. *)
Theorem X16_magic_ip_collisions (m1 m2 : Addr) :
  addr_z m1 = z4 →
  addr_z m2 = z4 →
  ClientTransitIPForMagicIP m1 = ClientTransitIPForMagicIP m2
  ↔ (addr_lo m1 mod 65536 = addr_lo m2 mod 65536)%N.
Proof.
  intros H1 H2.
  rewrite (ClientTransitIPForMagicIP_z4 m1 H1), (ClientTransitIPForMagicIP_z4 m2 H2).
  unfold AddrFrom4. rewrite !N.shiftr_div_pow2.
  change (2 ^ 32)%N with 4294967296%N. change (2 ^ 8)%N with 256%N.
  rewrite !lo_byte2, !lo_byte3.
  split.
  - intros [= Heq]. rewrite <- (lo_low16 (addr_lo m1)), <- (lo_low16 (addr_lo m2)).
    lia.
  - intros Heq. by rewrite Heq.
Qed.

Lemma X16_magic_ip_collisions_witness :
  ClientTransitIPForMagicIP (AddrFrom4 100 64 3 7)
  = ClientTransitIPForMagicIP (AddrFrom4 100 99 3 7)
  ↔ (addr_lo (AddrFrom4 100 64 3 7) mod 65536
     = addr_lo (AddrFrom4 100 99 3 7) mod 65536)%N.
Proof.
  apply (X16_magic_ip_collisions (AddrFrom4 100 64 3 7) (AddrFrom4 100 99 3 7));
    reflexivity.
Defined.
